(** * DPLL satisfiability checking: [sattools/solvers.py]

    A shallow embedding of the classes [Solver] and [DPLL] and the
    properties of their simplification rules and backtracking search.

    Conventions.
    - A literal is a Python [int], modelled as [Z]; a clause is a
      [list Z]; a CNF formula is a [list (list Z)], in source order.
    - A Python [set] of ints is a [gset Z].  The order in which Python
      iterates over a set is not fixed by the language: every iteration
      ([for literal in remove_literals], [list(solution)]) takes the order
      from a number drawn from the run's entropy, and every permutation of
      the set is obtained for some number ([iteration_order_complete]).
    - [np.random.choice] draws from the same entropy.  A run is
      determined by the formula and the entropy, a function [nat -> nat];
      the theorems quantify over all of them.
    - The recursion of [DPLL.backtrack] is driven by a fuel that bounds
      the depth of nested calls: [OutOfFuel] means that the chain of
      nested calls is longer than the fuel.
    - The [verbose] printing has no effect on the computation and is
      left out. *)

From stdpp Require Import base gmap sets list.
From Stdlib Require Import ZArith Lia.

#[local] Set Warnings "-clear-no-such-hyp".

Open Scope Z_scope.

(** ** Formula analysis: the static and class methods of [Solver] *)

(** Modelled from the spec: [flatten_list] is imported from
    [sattools/utils.py], which is not among the sources; the spec calls it
    the flattening helper.  It concatenates the clauses of a formula. *)
Definition flatten_list (cnf : list (list Z)) : list Z := mjoin cnf.

(** [set(np.unique(flatten_list(cnf)))] *)
Definition determine_literals (cnf : list (list Z)) : gset Z :=
  list_to_set (flatten_list cnf).

(** [{ul for ul in unique_literals if -ul not in unique_literals}] *)
Definition determine_pure_literals (cnf : list (list Z)) : gset Z :=
  let unique_literals := determine_literals cnf in
  filter (λ ul, - ul ∉ unique_literals) unique_literals.

(** The clauses whose length is 1 are selected by the boolean mask
    [clause_lenghts == 1], and flattened into a set. *)
Definition determine_unit_clauses (cnf : list (list Z)) : gset Z :=
  list_to_set (flatten_list (filter (λ clause, length clause = 1%nat) cnf)).

(** [[clause for clause in cnf if literal not in clause]] *)
Definition remove_clauses_with_literal (cnf : list (list Z)) (literal : Z)
  : list (list Z) :=
  filter (λ clause, literal ∉ clause) cnf.

(** [[[c for c in clause if c != literal] for clause in cnf]] *)
Definition shorten_clauses_with_literal (cnf : list (list Z)) (literal : Z)
  : list (list Z) :=
  (λ clause, filter (λ c, c ≠ literal) clause) <$> cnf.

(** The [deepcopy] only protects the caller's list from mutation; values
    are immutable here. *)
Definition remove_literal (cnf : list (list Z)) (literal : Z)
  : list (list Z) :=
  let cnf := remove_clauses_with_literal cnf literal in
  let cnf := shorten_clauses_with_literal cnf (- literal) in
  cnf.

(** *** Iteration over a Python set *)

(** The [r]-th enumeration of the list [l]: the element at index
    [r mod length l] comes first, the rest is enumerated by
    [r / length l]. *)
Fixpoint iteration_order_aux (n r : nat) (l : list Z) : list Z :=
  match n with
  | O => []
  | S n' =>
      let i := (r `mod` length l)%nat in
      match l !! i with
      | Some x => x :: iteration_order_aux n' (r `div` length l)%nat (delete i l)
      | None => []
      end
  end.

Definition iteration_order (r : nat) (s : gset Z) : list Z :=
  iteration_order_aux (length (elements s)) r (elements s).

(** [simplify]: the loop [for literal in remove_literals] visits the set
    in the order selected by [r]. *)
Definition simplify (r : nat) (cnf : list (list Z))
  : list (list Z) * gset Z :=
  let unit_clauses := determine_unit_clauses cnf in
  let pure_literals := determine_pure_literals cnf in
  let remove_literals := unit_clauses ∪ pure_literals in
  let cnf := foldl remove_literal cnf (iteration_order r remove_literals) in
  (cnf, remove_literals).

(** ** The solver object and its methods *)

(** The fields of a [DPLL] instance.  [entropy] is the source of the
    random draws still to come.  [calls] is a ghost field: the arguments
    of every invocation of [backtrack], most recent first; the program
    never reads it. *)
Record Solver := mkSolver {
  cnf : list (list Z);
  literals : gset Z;
  satisfied : bool;
  solution : list Z;
  backtrack_count : nat;
  recursion_count : nat;
  entropy : nat → nat;
  calls : list (list (list Z) * gset Z)
}.

(** [Solver.__init__] followed by [DPLL.__init__]. *)
Definition DPLL_init (formula : list (list Z)) (rng : nat → nat) : Solver :=
  {| cnf := formula;
     literals := determine_literals formula;
     satisfied := false;
     solution := [];
     backtrack_count := 0;
     recursion_count := 0;
     entropy := rng;
     calls := [] |}.

(** The result of running a method: it returns a value and the updated
    object, or [np.random.choice] raises [ValueError] on an empty
    collection, or the nesting of calls exceeds the fuel. *)
Inductive outcome (A : Type) : Type :=
| Ret (a : A) (self : Solver)
| ValueError
| OutOfFuel.
Arguments Ret {A} a self.
Arguments ValueError {A}.
Arguments OutOfFuel {A}.

Definition method (A : Type) : Type := Solver → outcome A.

Definition ret {A} (a : A) : method A := λ self, Ret a self.

Definition bind {A B} (m : method A) (k : A → method B) : method B :=
  λ self,
    match m self with
    | Ret a self' => k a self'
    | ValueError => ValueError
    | OutOfFuel => OutOfFuel
    end.

#[global] Instance method_ret : MRet method := @ret.
#[global] Instance method_bind : MBind method := λ A B k m, bind m k.

(** The next random number. *)
Definition draw : method nat :=
  λ self,
    Ret (entropy self 0%nat)
      (mkSolver (cnf self) (literals self) (satisfied self) (solution self)
         (backtrack_count self) (recursion_count self)
         (λ n, entropy self (S n)) (calls self)).

Definition get_literals : method (gset Z) := λ self, Ret (literals self) self.

(** [self.recursion_count += 1], and the ghost record of the call. *)
Definition enter_call (formula : list (list Z)) (partial_assignment : gset Z)
  : method unit :=
  λ self,
    Ret tt
      (mkSolver (cnf self) (literals self) (satisfied self) (solution self)
         (backtrack_count self) (S (recursion_count self))
         (entropy self) ((formula, partial_assignment) :: calls self)).

(** [self.backtrack_count += 1] *)
Definition count_backtrack : method unit :=
  λ self,
    Ret tt
      (mkSolver (cnf self) (literals self) (satisfied self) (solution self)
         (S (backtrack_count self)) (recursion_count self)
         (entropy self) (calls self)).

Definition store_solution (l : list Z) : method unit :=
  λ self,
    Ret tt
      (mkSolver (cnf self) (literals self) (satisfied self) l
         (backtrack_count self) (recursion_count self)
         (entropy self) (calls self)).

(** [self.solution = list(solution)]: the list enumerates the set. *)
Definition set_solution (s : gset Z) : method unit :=
  r ← draw;
  store_solution (iteration_order r s).

Definition set_satisfied (b : bool) : method unit :=
  λ self,
    Ret tt
      (mkSolver (cnf self) (literals self) b (solution self)
         (backtrack_count self) (recursion_count self)
         (entropy self) (calls self)).

(** [int(np.random.choice(list(candidates)))]: a uniformly drawn element;
    an empty collection raises [ValueError]. *)
Definition pick (r : nat) (a : list Z) (default : Z) : Z :=
  nth (r `mod` length a)%nat a default.

Definition random_choice (candidates : gset Z) : method Z :=
  match elements candidates with
  | [] => λ _, ValueError
  | x :: rest =>
      r ← draw;
      mret (pick r (x :: rest) x)
  end.

(** [DPLL.backtrack] *)
Fixpoint backtrack (fuel : nat) (cnf : list (list Z))
    (partial_assignment : gset Z) : method bool :=
  match fuel with
  | O => λ _, OutOfFuel
  | S fuel =>
      enter_call cnf partial_assignment;;
      r ← draw;
      let '(cnf, removed_literals) := simplify r cnf in
      let partial_assignment := partial_assignment ∪ removed_literals in
      if bool_decide (length cnf = 0%nat) then
        set_solution partial_assignment;;
        mret true
      else if bool_decide (0%nat ∈ length <$> cnf) then
        count_backtrack;;
        mret false
      else
        universe ← get_literals;
        literal ← random_choice (universe ∖ partial_assignment);
        satisfied ←
          backtrack fuel (remove_literal cnf (- literal))
            (partial_assignment ∪ {[ - literal ]});
        if negb satisfied then
          backtrack fuel (remove_literal cnf literal)
            (partial_assignment ∪ {[ literal ]})
        else mret satisfied
  end.

(** [DPLL.start] *)
Definition start (fuel : nat) : method bool :=
  λ self, backtrack fuel (cnf self) ∅ self.

(** [Solver.solve] *)
Definition solve (fuel : nat) : method unit :=
  b ← start fuel;
  set_satisfied b.

(** Running [DPLL(formula).solve()] from a fresh object. *)
Definition run (fuel : nat) (rng : nat → nat) (formula : list (list Z))
  : outcome unit :=
  solve fuel (DPLL_init formula rng).

#[global] Arguments simplify : simpl never.
#[global] Arguments remove_literal : simpl never.
#[global] Arguments iteration_order : simpl never.
#[global] Arguments random_choice : simpl never.
#[global] Arguments pick : simpl never.

(** What the caller reads back: [satisfied] and, as a set, [solution]. *)
Definition report (o : outcome unit) : option (bool * list Z) :=
  match o with
  | Ret _ self => Some (satisfied self, solution self)
  | _ => None
  end.

(** * Notions used to state the properties *)

(** ** Truth under a valuation *)

(** A valuation gives every variable (a positive integer) one truth
    value; the literal [0] holds under none. *)
Definition lit_true (v : Z → bool) (l : Z) : bool :=
  if decide (0 < l) then v l
  else if decide (l < 0) then negb (v (- l))
  else false.

(** Every clause has a true literal. *)
Definition models (v : Z → bool) (g : list (list Z)) : Prop :=
  ∀ c, c ∈ g → ∃ l, l ∈ c ∧ lit_true v l = true.

(** The valuation that makes [l] true and agrees with [v] elsewhere. *)
Definition commit (v : Z → bool) (l : Z) : Z → bool :=
  λ y, if decide (y = Z.abs l) then bool_decide (0 < l) else v y.

(** ** Assignments as sets of literals *)

(** The Variable Universe: the variables of the literals of the formula. *)
Definition variable_universe (f : list (list Z)) : gset Z :=
  set_map Z.abs (determine_literals f).

(** An assignment over the universe [U]: literals over variables of [U],
    one polarity chosen for every variable of [U]. *)
Definition assignment_over (U A : gset Z) : Prop :=
  (∀ l, l ∈ A → Z.abs l ∈ U) ∧
  (∀ x, x ∈ U → (x ∈ A ∧ (- x) ∉ A) ∨ ((x ∉ A) ∧ (- x) ∈ A)).

(** The assignment contains a literal of every clause. *)
Definition satisfies (A : gset Z) (f : list (list Z)) : Prop :=
  ∀ c, c ∈ f → ∃ l, l ∈ c ∧ l ∈ A.

(** The valuation that an assignment stands for. *)
Definition valuation_of (A : gset Z) : Z → bool := λ x, bool_decide (x ∈ A).

(** No literal together with its negation. *)
Definition consistent (A : gset Z) : Prop := ∀ l, l ∈ A → (- l) ∉ A.

(** No two opposite literals; the literal [0] is its own negation. *)
Definition no_opposite_literals (S : gset Z) : Prop :=
  ∀ l, l ∈ S → l ≠ 0 → (- l) ∉ S.

Definition no_opposite_literalsb (S : gset Z) : bool :=
  forallb (λ l, bool_decide (l = 0) || bool_decide ((- l) ∉ S)) (elements S).

(** ** The state of a search *)

(** The set [remove_literals] computed by [simplify]. *)
Definition forced_literals (g : list (list Z)) : gset Z :=
  determine_unit_clauses g ∪ determine_pure_literals g.

(** Every clause of [f] is satisfied by [pa] or still has a shortened
    copy in [g]. *)
Definition covered (f g : list (list Z)) (pa : gset Z) : Prop :=
  ∀ c, c ∈ f → (∃ l, l ∈ c ∧ l ∈ pa) ∨ (∃ c', c' ∈ g ∧ c' ⊆ c).

(** The variables assigned by [pa] no longer occur in [g]. *)
Definition settled (g : list (list Z)) (pa : gset Z) : Prop :=
  ∀ p, p ∈ pa → (p ∉ determine_literals g) ∧ (- p) ∉ determine_literals g.

(** ** The search as a relation

    [search L g pa res]: some run of [backtrack] on the formula [g] and
    the partial assignment [pa], with [self.literals = L], returns; [res]
    is the recorded solution when it returns [True], and [None] when it
    returns [False]. *)
Inductive search (L : gset Z)
  : list (list Z) → gset Z → option (gset Z) → Prop :=
| search_satisfied g pa r g' S :
    simplify r g = (g', S) → g' = [] →
    search L g pa (Some (pa ∪ S))
| search_conflict g pa r g' S :
    simplify r g = (g', S) → g' ≠ [] → [] ∈ g' →
    search L g pa None
| search_first g pa r g' S x sol :
    simplify r g = (g', S) → g' ≠ [] → [] ∉ g' →
    x ∈ L ∖ (pa ∪ S) →
    search L (remove_literal g' (- x)) (pa ∪ S ∪ {[ - x ]}) (Some sol) →
    search L g pa (Some sol)
| search_second g pa r g' S x res :
    simplify r g = (g', S) → g' ≠ [] → [] ∉ g' →
    x ∈ L ∖ (pa ∪ S) →
    search L (remove_literal g' (- x)) (pa ∪ S ∪ {[ - x ]}) None →
    search L (remove_literal g' x) (pa ∪ S ∪ {[ x ]}) res →
    search L g pa res.

(** What a returned call reports. *)
Definition answer (b : bool) (self : Solver) : option (gset Z) :=
  if b then Some (list_to_set (solution self)) else None.

(** The arguments of the invocations of [backtrack], in call order. *)
Definition calls_of (o : outcome unit) : list (list (list Z) * gset Z) :=
  match o with
  | Ret _ self => rev (calls self)
  | _ => []
  end.

(** ** The composite rule in the words of the specification

    First drop the clauses that contain [l], then delete [-l] from the
    remaining ones. *)
Fixpoint drop_clauses_containing (l : Z) (f : list (list Z))
  : list (list Z) :=
  match f with
  | [] => []
  | c :: f' =>
      if decide (l ∈ c) then drop_clauses_containing l f'
      else c :: drop_clauses_containing l f'
  end.

Fixpoint delete_literal (m : Z) (c : list Z) : list Z :=
  match c with
  | [] => []
  | x :: c' =>
      if decide (x = m) then delete_literal m c'
      else x :: delete_literal m c'
  end.

Definition drop_then_shorten (f : list (list Z)) (l : Z) : list (list Z) :=
  map (delete_literal (- l)) (drop_clauses_containing l f).

(** ** Two runs that branch on an assigned variable *)

(** Draws that pick the literal [1] at the first two branch points of
    [[1, 2, 3], [-1, 2, 3], [2, -3], [-2, 3], [-2, -3]]. *)
Definition revisiting_formula : list (list Z) :=
  [[1; 2; 3]; [-1; 2; 3]; [2; -3]; [-2; 3]; [-2; -3]].

Definition revisiting_draws : nat → nat := λ n, nth n [0; 5; 0; 4]%nat 0%nat.

(** A formula over three variables, what is left of it once [-1] is
    committed, and draws that pick the literal [1] at every branch point
    of the search on it. *)
Definition stubborn_formula : list (list Z) :=
  [[1; 2; 3]; [-1; 2; 3]; [-2; -3]].

Definition stubborn_residue : list (list Z) := [[2; 3]; [-2; -3]].

Definition stubborn_draws : nat → nat := λ _, 29%nat.

(** * Proofs *)

(** ** Basic facts about the analysis functions *)

Section analysis.
Implicit Types (g : list (list Z)) (c : list Z) (l m : Z).

Lemma filter_ne_absent c l : l ∉ c → filter (λ x, x ≠ l) c = c.
Proof.
  induction c as [|x c IH]; intros Hl; [done|].
  rewrite filter_cons_True.
  - f_equal. apply IH. intros ?. apply Hl. by right.
  - intros ->. apply Hl. left.
Qed.

Lemma elem_of_determine_literals g l :
  l ∈ determine_literals g ↔ ∃ c, c ∈ g ∧ l ∈ c.
Proof.
  unfold determine_literals, flatten_list.
  rewrite elem_of_list_to_set, list_elem_of_join.
  split; intros (c & ? & ?); eauto.
Qed.

Lemma elem_of_determine_unit_clauses g l :
  l ∈ determine_unit_clauses g ↔ [l] ∈ g.
Proof.
  unfold determine_unit_clauses, flatten_list.
  rewrite elem_of_list_to_set, list_elem_of_join. split.
  - intros (c & Hl & Hc). apply list_elem_of_filter in Hc as [Hlen Hc].
    destruct c as [|x [|y c]]; simpl in Hlen; try lia.
    apply list_elem_of_singleton in Hl. by subst.
  - intros Hc. exists [l]. split; [apply list_elem_of_singleton; done|].
    apply list_elem_of_filter. done.
Qed.

Lemma elem_of_determine_pure_literals g l :
  l ∈ determine_pure_literals g ↔
  l ∈ determine_literals g ∧ (- l) ∉ determine_literals g.
Proof. unfold determine_pure_literals. rewrite elem_of_filter. tauto. Qed.

Lemma elem_of_remove_literal g l c' :
  c' ∈ remove_literal g l ↔
  ∃ c, c ∈ g ∧ (l ∉ c) ∧ c' = filter (λ x, x ≠ - l) c.
Proof.
  unfold remove_literal, shorten_clauses_with_literal,
    remove_clauses_with_literal.
  rewrite list_elem_of_fmap. split.
  - intros (c & -> & Hc). apply list_elem_of_filter in Hc as [? ?]. eauto.
  - intros (c & Hc & Hl & ->). exists c. split; [done|].
    by apply list_elem_of_filter.
Qed.

(** Committing [l] leaves no occurrence of [l] or [-l], and adds none. *)
Lemma literals_remove_literal g l m :
  m ∈ determine_literals (remove_literal g l) →
  m ∈ determine_literals g ∧ m ≠ l ∧ m ≠ - l.
Proof.
  rewrite !elem_of_determine_literals.
  intros (c' & Hc' & Hm). apply elem_of_remove_literal in Hc'
    as (c & Hc & Hl & ->).
  apply list_elem_of_filter in Hm as [Hne Hm].
  split; [eauto|]. split; [|done]. intros ->. done.
Qed.

Lemma literals_foldl_remove_literal ls g m :
  m ∈ determine_literals (foldl remove_literal g ls) →
  m ∈ determine_literals g ∧ ∀ l, l ∈ ls → m ≠ l ∧ m ≠ - l.
Proof.
  revert g. induction ls as [|l ls IH]; intros g; simpl.
  - intros Hm. split; [done|]. intros l Hl. by apply elem_of_nil in Hl.
  - intros Hm. apply IH in Hm as [Hm Hls].
    apply literals_remove_literal in Hm as (Hm & Hne1 & Hne2).
    split; [done|]. intros l' Hl'.
    apply elem_of_cons in Hl' as [->|Hl']; [done|]. by apply Hls.
Qed.

(** A literal whose variable does not occur changes nothing. *)
Lemma remove_literal_absent g l :
  l ∉ determine_literals g → (- l) ∉ determine_literals g →
  remove_literal g l = g.
Proof.
  rewrite !elem_of_determine_literals. intros Hp Hn.
  unfold remove_literal, shorten_clauses_with_literal,
    remove_clauses_with_literal.
  induction g as [|c g IH]; [done|].
  rewrite filter_cons_True
    by (intros Hc; apply Hp; exists c; split; [left|done]).
  rewrite fmap_cons. f_equal.
  - apply filter_ne_absent. intros Hc. apply Hn. exists c. split; [left|done].
  - apply IH.
    + intros (c0 & Hc0 & Hl). apply Hp. exists c0. split; [by right|done].
    + intros (c0 & Hc0 & Hl). apply Hn. exists c0. split; [by right|done].
Qed.

(** The empty clause is never removed. *)
Lemma empty_clause_remove_literal g l :
  [] ∈ g → [] ∈ remove_literal g l.
Proof.
  intros H. apply elem_of_remove_literal. exists []. split; [done|].
  split; [apply not_elem_of_nil|done].
Qed.

Lemma empty_clause_foldl ls g :
  [] ∈ g → [] ∈ foldl remove_literal g ls.
Proof.
  revert g. induction ls as [|l ls IH]; intros g H; simpl; [done|].
  apply IH. by apply empty_clause_remove_literal.
Qed.

End analysis.

(** ** Iteration orders are exactly the permutations of the set *)

Section iteration.
Implicit Types (l p : list Z) (s : gset Z).

Lemma iteration_order_aux_perm n r l :
  length l = n → iteration_order_aux n r l ≡ₚ l.
Proof.
  revert r l. induction n as [|n IH]; intros r l Hlen; simpl.
  - by destruct l.
  - destruct (lookup_lt_is_Some_2 l (r `mod` length l)%nat) as [x Hx].
    { apply Nat.mod_upper_bound. lia. }
    rewrite Hx. etrans; [|symmetry; apply (delete_Permutation l _ x Hx)].
    apply perm_skip, IH.
    rewrite length_delete by eauto. lia.
Qed.

Lemma iteration_order_aux_complete n l p :
  length l = n → l ≡ₚ p → ∃ r, iteration_order_aux n r l = p.
Proof.
  revert l p. induction n as [|n IH]; intros l p Hlen Hp.
  - destruct l; [|done]. apply Permutation_nil in Hp as ->. by exists 0%nat.
  - destruct p as [|x p].
    { apply Permutation_nil_r in Hp. by subst. }
    apply Permutation_cons_inv_r in Hp as (k1 & k2 & -> & Hp).
    rewrite length_app in Hlen. simpl in Hlen.
    destruct (IH (k1 ++ k2) p) as [r' Hr'].
    { rewrite length_app. lia. }
    { done. }
    exists (length k1 + r' * length (k1 ++ x :: k2))%nat. simpl.
    assert (length k1 < length (k1 ++ x :: k2))%nat as Hlt
      by (rewrite length_app; simpl; lia).
    rewrite Nat.Div0.mod_add, Nat.div_add by lia.
    rewrite Nat.mod_small, Nat.div_small by done.
    rewrite list_lookup_middle by done.
    rewrite delete_middle. simpl. by rewrite Hr'.
Qed.

Lemma iteration_order_perm r s : iteration_order r s ≡ₚ elements s.
Proof. by apply iteration_order_aux_perm. Qed.

(** Every enumeration of the set is the iteration order of some draw. *)
Lemma iteration_order_complete s p :
  p ≡ₚ elements s → ∃ r, iteration_order r s = p.
Proof. intros Hp. by apply iteration_order_aux_complete. Qed.

Lemma elem_of_iteration_order r s x : x ∈ iteration_order r s ↔ x ∈ s.
Proof. by rewrite iteration_order_perm, elem_of_elements. Qed.

Lemma list_to_set_iteration_order r s :
  list_to_set (iteration_order r s) = s.
Proof.
  apply set_eq. intros x.
  by rewrite elem_of_list_to_set, elem_of_iteration_order.
Qed.
End iteration.

(** ** Truth under a valuation *)

Section valuations.
Implicit Types (v : Z → bool) (g : list (list Z)) (l m : Z).

Lemma lit_true_opp v l : lit_true v l = true → lit_true v (- l) = false.
Proof.
  unfold lit_true. repeat case_decide; try lia; try done.
  - intros Hv. by rewrite Z.opp_involutive, Hv.
  - by intros ->%negb_true_iff.
Qed.

Lemma lit_true_commit v l : l ≠ 0 → lit_true (commit v l) l = true.
Proof.
  intros Hl. unfold lit_true, commit.
  repeat case_decide; try lia; try done.
Qed.

Lemma lit_true_commit_other v l m :
  m ≠ l → m ≠ - l → lit_true (commit v l) m = lit_true v m.
Proof.
  intros H1 H2. unfold lit_true, commit.
  repeat case_decide; try lia; try done.
Qed.

(** Committing a literal whose negation is false, or does not occur,
    keeps every model. *)
Lemma models_remove_literal v g l :
  models v g →
  lit_true v (- l) = false ∨ (- l) ∉ determine_literals g →
  models v (remove_literal g l).
Proof.
  intros Hg Hl c' Hc'.
  apply elem_of_remove_literal in Hc' as (c & Hc & Hlc & ->).
  destruct (Hg c Hc) as (m & Hm & Hv). exists m. split; [|done].
  apply list_elem_of_filter. split; [|done]. intros ->.
  destruct Hl as [Hl|Hl]; [congruence|].
  apply Hl, elem_of_determine_literals. eauto.
Qed.

Lemma models_foldl v ls g :
  models v g →
  (∀ l, l ∈ ls → lit_true v (- l) = false ∨ (- l) ∉ determine_literals g) →
  models v (foldl remove_literal g ls).
Proof.
  revert g. induction ls as [|l ls IH]; intros g Hg Hls; simpl; [done|].
  apply IH.
  - apply models_remove_literal; [done|]. apply Hls. left.
  - intros l' Hl'. destruct (Hls l') as [?|Hn]; [by right|by left|].
    right. intros Hin. by apply literals_remove_literal in Hin as [? _].
Qed.

(** A model of the committed formula extends to the formula. *)
Lemma models_commit v g l :
  l ≠ 0 → models v (remove_literal g l) → models (commit v l) g.
Proof.
  intros Hl Hg c Hc. destruct (decide (l ∈ c)) as [Hin|Hin].
  - exists l. split; [done|]. by apply lit_true_commit.
  - destruct (Hg (filter (λ x, x ≠ - l) c)) as (m & Hm & Hv).
    { apply elem_of_remove_literal. eauto. }
    apply list_elem_of_filter in Hm as [Hne Hm]. exists m. split; [done|].
    rewrite lit_true_commit_other; [done| |done]. by intros ->.
Qed.

Lemma satisfiable_foldl ls g :
  (∀ l, l ∈ ls → l ≠ 0) →
  (∃ v, models v (foldl remove_literal g ls)) → ∃ v, models v g.
Proof.
  revert g. induction ls as [|l ls IH]; intros g Hls; simpl; [done|].
  intros Hv. apply IH in Hv as [v Hv].
  - exists (commit v l). apply models_commit; [|done]. apply Hls. left.
  - intros l' Hl'. apply Hls. by right.
Qed.
End valuations.

(** ** Every returned call is a derivation of [search] *)

Section adequacy.
Implicit Types (g : list (list Z)) (pa : gset Z) (self : Solver).

Lemma zero_length_clause g : 0%nat ∈ length <$> g ↔ [] ∈ g.
Proof.
  rewrite list_elem_of_fmap. split.
  - intros (c & Hlen & Hc). by destruct c.
  - intros Hc. by exists [].
Qed.

Lemma random_choice_Ret (X : gset Z) self x self' :
  random_choice X self = Ret x self' →
  x ∈ X ∧ literals self' = literals self.
Proof.
  unfold random_choice. destruct (elements X) as [|y ys] eqn:HX; [done|].
  unfold mbind, method_bind, bind, draw, mret, method_ret, ret.
  intros [= <- <-]. split; [|done].
  apply elem_of_elements. rewrite HX.
  apply list_elem_of_In, nth_In, Nat.mod_upper_bound. done.
Qed.

Lemma random_choice_ValueError (X : gset Z) self :
  random_choice X self = ValueError ↔ X = ∅.
Proof.
  unfold random_choice. split.
  - destruct (elements X) as [|y ys] eqn:HX; [|done].
    intros _. by apply elements_empty_inv, leibniz_equiv in HX.
  - intros ->. by rewrite elements_empty.
Qed.

(** Every candidate can be drawn. *)
Lemma random_choice_complete (X : gset Z) self x :
  x ∈ X → ∃ rng self',
    random_choice X
      (mkSolver (cnf self) (literals self) (satisfied self) (solution self)
         (backtrack_count self) (recursion_count self) rng (calls self))
    = Ret x self'.
Proof.
  intros Hx%elem_of_elements. unfold random_choice.
  destruct (elements X) as [|y ys] eqn:HX; [by apply elem_of_nil in Hx|].
  apply list_elem_of_lookup in Hx as [i Hi].
  exists (λ _, i). eexists.
  unfold mbind, method_bind, bind, draw, mret, method_ret, ret, pick.
  simpl entropy. rewrite Nat.mod_small by (by eapply lookup_lt_Some).
  f_equal. by apply nth_lookup_Some.
Qed.

(** One level of [backtrack], with the binds unfolded. *)
Lemma backtrack_S fuel g pa self :
  backtrack (S fuel) g pa self =
  let self1 := mkSolver (cnf self) (literals self) (satisfied self)
    (solution self) (backtrack_count self) (S (recursion_count self))
    (λ n, entropy self (S n)) ((g, pa) :: calls self) in
  let g' := (simplify (entropy self 0%nat) g).1 in
  let pa' := pa ∪ (simplify (entropy self 0%nat) g).2 in
  if bool_decide (length g' = 0%nat) then
    (set_solution pa';; mret true) self1
  else if bool_decide (0%nat ∈ length <$> g') then
    (count_backtrack;; mret false) self1
  else
    match random_choice (literals self ∖ pa') self1 with
    | Ret x self2 =>
        match
          backtrack fuel (remove_literal g' (- x)) (pa' ∪ {[ - x ]}) self2
        with
        | Ret true self3 => Ret true self3
        | Ret false self3 =>
            backtrack fuel (remove_literal g' x) (pa' ∪ {[ x ]}) self3
        | ValueError => ValueError
        | OutOfFuel => OutOfFuel
        end
    | ValueError => ValueError
    | OutOfFuel => OutOfFuel
    end.
Proof.
  simpl. unfold mbind, method_bind, bind, enter_call, draw, get_literals.
  simpl. destruct (simplify (entropy self 0%nat) g) as [g' S]. simpl.
  repeat case_bool_decide; try done.
  destruct (random_choice _ _) as [x self2| |]; try done.
  destruct (backtrack fuel _ _ self2) as [[] self3| |]; done.
Qed.

(** Every returned call is a derivation of [search], and the method
    never assigns [self.literals]. *)
Lemma backtrack_search fuel g pa self b self' :
  backtrack fuel g pa self = Ret b self' →
  literals self' = literals self ∧
  search (literals self) g pa (answer b self').
Proof.
  revert g pa self b self'.
  induction fuel as [|fuel IH]; intros g pa self b self'; [done|].
  rewrite backtrack_S.
  destruct (simplify (entropy self 0%nat) g) as [g' S] eqn:Hs. cbv zeta.
  unfold fst, snd.
  case_bool_decide as Hnil.
  { intros [= <- <-]. split; [done|]. unfold answer. simpl solution.
    rewrite list_to_set_iteration_order.
    eapply search_satisfied; [done|]. by destruct g'. }
  case_bool_decide as Hemp.
  { intros [= <- <-]. split; [done|].
    eapply search_conflict; [done| |by apply zero_length_clause].
    by intros ->. }
  assert (g' ≠ []) as Hne by (by intros ->).
  rewrite zero_length_clause in Hemp.
  destruct (random_choice _ _) as [x self1| |] eqn:Hx; [|done|done].
  apply random_choice_Ret in Hx as [Hx HL1]. simpl in HL1.
  destruct (backtrack fuel _ _ self1) as [b1 self2| |] eqn:H1;
    [|done|done].
  apply IH in H1 as [HL2 H1]. rewrite HL1 in HL2, H1.
  destruct b1.
  - intros [= <- <-]. split; [done|].
    eapply search_first; eauto.
  - intros H2. apply IH in H2 as [HL3 H2]. rewrite HL2 in HL3, H2.
    split; [done|]. eapply search_second; eauto.
Qed.
End adequacy.

(** ** One pass of [simplify] *)

Section simplify_facts.
Implicit Types (f g : list (list Z)) (pa S : gset Z) (l m : Z).

Lemma simplify_spec r g g' S :
  simplify r g = (g', S) →
  S = forced_literals g ∧
  g' = foldl remove_literal g (iteration_order r S).
Proof. unfold simplify. by intros [= <- <-]. Qed.

Lemma forced_literals_occur g l :
  l ∈ forced_literals g → l ∈ determine_literals g.
Proof.
  unfold forced_literals. rewrite elem_of_union.
  rewrite elem_of_determine_unit_clauses, elem_of_determine_pure_literals.
  intros [Hu|[Hp _]]; [|done].
  apply elem_of_determine_literals. exists [l]. split; [done|].
  by apply list_elem_of_singleton.
Qed.

Lemma literals_simplify r g g' S m :
  simplify r g = (g', S) →
  m ∈ determine_literals g' →
  m ∈ determine_literals g ∧ ∀ l, l ∈ S → m ≠ l ∧ m ≠ - l.
Proof.
  intros [-> ->]%simplify_spec Hm.
  apply literals_foldl_remove_literal in Hm as [Hm Hls].
  split; [done|]. intros l Hl. apply Hls. by apply elem_of_iteration_order.
Qed.

Lemma covered_refl f : covered f f ∅.
Proof. intros c Hc. right. by exists c. Qed.

Lemma covered_remove_literal f g pa l :
  covered f g pa → covered f (remove_literal g l) (pa ∪ {[ l ]}).
Proof.
  intros Hcov c Hc. destruct (Hcov c Hc) as [(m & Hm & Hpa)|(c' & Hc' & Hsub)].
  - left. exists m. split; [done|]. set_solver.
  - destruct (decide (l ∈ c')) as [Hl|Hl].
    + left. exists l. split; [by apply Hsub|]. set_solver.
    + right. exists (filter (λ x, x ≠ - l) c'). split.
      * apply elem_of_remove_literal. eauto.
      * intros x Hx. apply list_elem_of_filter in Hx as [_ Hx]. by apply Hsub.
Qed.

Lemma covered_foldl f ls g pa :
  covered f g pa →
  covered f (foldl remove_literal g ls) (pa ∪ list_to_set ls).
Proof.
  revert g pa. induction ls as [|l ls IH]; intros g pa Hcov; simpl.
  - by rewrite union_empty_r_L.
  - replace (pa ∪ ({[ l ]} ∪ list_to_set ls))
      with (pa ∪ {[ l ]} ∪ list_to_set ls) by set_solver.
    by apply IH, covered_remove_literal.
Qed.

Lemma covered_simplify f r g g' pa S :
  simplify r g = (g', S) → covered f g pa → covered f g' (pa ∪ S).
Proof.
  intros [HS ->]%simplify_spec Hcov.
  rewrite <- (list_to_set_iteration_order r S) at 2.
  by apply covered_foldl.
Qed.

(** The forced literals hold in every model: one pass keeps the models. *)
Lemma models_simplify v r g g' S :
  simplify r g = (g', S) → models v g → models v g'.
Proof.
  intros [-> ->]%simplify_spec Hg. apply models_foldl; [done|].
  intros l Hl. apply elem_of_iteration_order in Hl.
  unfold forced_literals in Hl. apply elem_of_union in Hl as [Hu|Hp].
  - left. apply elem_of_determine_unit_clauses in Hu.
    destruct (Hg _ Hu) as (m & ->%list_elem_of_singleton & Hv).
    by apply lit_true_opp.
  - right. by apply elem_of_determine_pure_literals in Hp as [_ ?].
Qed.

Lemma satisfiable_simplify r g g' S :
  0 ∉ determine_literals g → simplify r g = (g', S) →
  (∃ v, models v g') → ∃ v, models v g.
Proof.
  intros H0 [-> ->]%simplify_spec. apply satisfiable_foldl.
  intros l Hl%elem_of_iteration_order%forced_literals_occur ->. done.
Qed.
End simplify_facts.

(** ** Properties of every terminating search *)

Section search_facts.
Context (L : gset Z).
Implicit Types (f g : list (list Z)) (pa S sol : gset Z) (l m x : Z).

(** The recorded solution contains a literal of every clause. *)
Lemma search_covers f g pa res :
  search L g pa res → covered f g pa →
  ∀ sol, res = Some sol → ∀ c, c ∈ f → ∃ l, l ∈ c ∧ l ∈ sol.
Proof.
  induction 1 as [g pa r g' S Hs ->|g pa r g' S Hs Hne Hemp
    |g pa r g' S x sol' Hs Hne Hemp Hx _ IH
    |g pa r g' S x res Hs Hne Hemp Hx _ _ _ IH]; intros Hcov sol Hres.
  - injection Hres as <-. intros c Hc.
    destruct (covered_simplify f _ _ _ _ _ Hs Hcov c Hc)
      as [?|(c' & Hc' & _)]; [done|]. by apply elem_of_nil in Hc'.
  - done.
  - apply IH; [|done].
    by apply covered_remove_literal, (covered_simplify f r g).
  - apply IH; [|done].
    by apply covered_remove_literal, (covered_simplify f r g).
Qed.

(** A search that returns [False] has refuted the formula. *)
Lemma search_refutes g pa res :
  search L g pa res → res = None → ∀ v, ¬ models v g.
Proof.
  induction 1 as [g pa r g' S Hs ->|g pa r g' S Hs Hne Hemp
    |g pa r g' S x sol' Hs Hne Hemp Hx _ IH
    |g pa r g' S x res Hs Hne Hemp Hx _ IH1 _ IH2]; intros Hres v Hv;
    try done.
  - apply (models_simplify v) in Hs; [|done].
    destruct (Hs [] Hemp) as (l & Hl & _). by apply elem_of_nil in Hl.
  - apply (models_simplify v) in Hs; [|done].
    destruct (lit_true v x) eqn:Hvx.
    + apply (IH2 Hres v). apply models_remove_literal; [done|].
      left. by apply lit_true_opp.
    + apply (IH1 eq_refl v). apply models_remove_literal; [done|].
      left. by rewrite Z.opp_involutive.
Qed.

(** A search that returns [True] was given a satisfiable formula. *)
Lemma search_satisfiable g pa res :
  search L g pa res → 0 ∉ L → 0 ∉ determine_literals g →
  is_Some res → ∃ v, models v g.
Proof.
  induction 1 as [g pa r g' S Hs ->|g pa r g' S Hs Hne Hemp
    |g pa r g' S x sol' Hs Hne Hemp Hx _ IH
    |g pa r g' S x res Hs Hne Hemp Hx _ _ _ IH]; intros HL Hg Hres.
  - apply (satisfiable_simplify _ _ _ _ Hg Hs).
    exists (λ _, true). intros c Hc. by apply elem_of_nil in Hc.
  - by destruct Hres.
  - apply (satisfiable_simplify _ _ _ _ Hg Hs).
    assert (0 ∉ determine_literals g') as Hg'
      by (intros H0; by apply (literals_simplify _ _ _ _ _ Hs) in H0 as [? _]).
    destruct IH as [v Hv]; [done| |done|].
    { intros H0. by apply literals_remove_literal in H0 as [? _]. }
    exists (commit v (- x)). apply models_commit; [|done].
    apply elem_of_difference in Hx as [Hx _]. intros ?.
    apply HL. by replace 0 with x by lia.
  - apply (satisfiable_simplify _ _ _ _ Hg Hs).
    assert (0 ∉ determine_literals g') as Hg'
      by (intros H0; by apply (literals_simplify _ _ _ _ _ Hs) in H0 as [? _]).
    destruct IH as [v Hv]; [done| |done|].
    { intros H0. by apply literals_remove_literal in H0 as [? _]. }
    exists (commit v x). apply models_commit; [|done].
    apply elem_of_difference in Hx as [Hx _]. by intros ->.
Qed.
End search_facts.

(** ** The recorded solution never holds both polarities *)

Section consistency.
Context (L : gset Z).
Implicit Types (g : list (list Z)) (pa S sol : gset Z) (l m x : Z).

(** Two complementary unit clauses leave an empty clause, in whichever
    order the forced literals are committed. *)
Lemma complementary_units_foldl ls g l :
  l ≠ 0 → [l] ∈ g → [- l] ∈ g → l ∈ ls ∨ (- l) ∈ ls →
  [] ∈ foldl remove_literal g ls.
Proof.
  intros Hl. revert g. induction ls as [|a ls IH]; intros g Hp Hn Hin.
  { destruct Hin as [Hin|Hin]; by apply elem_of_nil in Hin. }
  simpl. destruct (decide (a = l)) as [->|Hal].
  { apply empty_clause_foldl, elem_of_remove_literal. exists [- l].
    split; [done|]. split.
    - intros ?%list_elem_of_singleton. lia.
    - by rewrite filter_cons_False, filter_nil by (intros ?; done). }
  destruct (decide (a = - l)) as [->|Hanl].
  { apply empty_clause_foldl, elem_of_remove_literal. exists [l].
    split; [done|]. split.
    - intros ?%list_elem_of_singleton. lia.
    - rewrite filter_cons_False, filter_nil; [done|].
      intros Hne. apply Hne. lia. }
  apply IH.
  - apply elem_of_remove_literal. exists [l]. split; [done|]. split.
    + by intros ?%list_elem_of_singleton.
    + rewrite filter_cons_True, filter_nil; [done|]. lia.
  - apply elem_of_remove_literal. exists [- l]. split; [done|]. split.
    + by intros ?%list_elem_of_singleton.
    + rewrite filter_cons_True, filter_nil; [done|]. lia.
  - destruct Hin as [Hin|Hin]; apply elem_of_cons in Hin as [?|?];
      try done; eauto.
Qed.

Lemma complementary_forced_conflict r g g' S l :
  simplify r g = (g', S) → l ≠ 0 → l ∈ S → (- l) ∈ S → [] ∈ g'.
Proof.
  intros [-> ->]%simplify_spec Hl Hp Hn.
  assert (∀ m, m ∈ forced_literals g → (- m) ∈ forced_literals g →
    [m] ∈ g) as Hunit.
  { intros m Hm Hnm. unfold forced_literals in Hm.
    apply elem_of_union in Hm as [Hm|Hm].
    - by apply elem_of_determine_unit_clauses.
    - apply elem_of_determine_pure_literals in Hm as [_ Hm].
      by apply forced_literals_occur in Hnm. }
  apply (complementary_units_foldl _ _ l); [done|by apply Hunit| |].
  - apply Hunit; [done|]. by rewrite Z.opp_involutive.
  - left. by apply elem_of_iteration_order.
Qed.

Lemma settled_remove_literal g pa l :
  settled g pa → settled (remove_literal g l) (pa ∪ {[ l ]}).
Proof.
  intros Hset p Hp. apply elem_of_union in Hp as [Hp| ->%elem_of_singleton].
  - destruct (Hset p Hp) as [H1 H2].
    split; intros [? _]%literals_remove_literal; done.
  - split; intros (_ & ? & ?)%literals_remove_literal; [done|lia].
Qed.

Lemma settled_simplify r g g' pa S :
  simplify r g = (g', S) → settled g pa → settled g' (pa ∪ S).
Proof.
  intros Hs Hset p Hp. apply elem_of_union in Hp as [Hp|Hp].
  - destruct (Hset p Hp) as [H1 H2].
    split; intros [? _]%(literals_simplify _ _ _ _ _ Hs); done.
  - split; intros [_ Hm]%(literals_simplify _ _ _ _ _ Hs);
      destruct (Hm p Hp); [done|lia].
Qed.

Lemma consistent_simplify r g g' pa S :
  simplify r g = (g', S) → 0 ∉ determine_literals g → [] ∉ g' →
  settled g pa → consistent pa → consistent (pa ∪ S).
Proof.
  intros Hs H0 Hemp Hset Hcon l Hl Hnl.
  assert (∀ m, m ∈ S → m ∈ determine_literals g) as Hocc.
  { intros m Hm. apply simplify_spec in Hs as [-> _].
    by apply forced_literals_occur. }
  apply elem_of_union in Hl as [Hl|Hl]; apply elem_of_union in Hnl as [Hnl|Hnl].
  - by apply (Hcon l).
  - destruct (Hset l Hl) as [_ H2]. by apply H2, Hocc.
  - destruct (Hset (- l) Hnl) as [_ H2]. rewrite Z.opp_involutive in H2.
    by apply H2, Hocc.
  - apply Hemp, (complementary_forced_conflict r g g' S l); try done.
    intros ->. by apply H0, Hocc.
Qed.

(** Started from a consistent assignment whose variables are gone from
    the formula, a search that returns [True] records a consistent
    assignment, made of the initial literals and of literals over the
    variables of [L]. *)
Lemma search_consistent g pa res :
  search L g pa res → 0 ∉ L → determine_literals g ⊆ L →
  settled g pa → consistent pa →
  ∀ sol, res = Some sol →
    consistent sol ∧ ∀ l, l ∈ sol → l ∈ pa ∨ l ∈ L ∨ (- l) ∈ L.
Proof.
  induction 1 as [g pa r g' S Hs ->|g pa r g' S Hs Hne Hemp
    |g pa r g' S x sol' Hs Hne Hemp Hx H1 IH
    |g pa r g' S x res Hs Hne Hemp Hx H1 _ H2 IH];
    intros HL Hsub Hset Hcon sol Hres; try done.
  - injection Hres as <-. split.
    + apply (consistent_simplify r g [] pa S); try done.
      * intros H0. by apply HL, Hsub.
      * apply not_elem_of_nil.
    + intros l [?|Hl]%elem_of_union; [by left|]. right; left.
      apply Hsub. apply simplify_spec in Hs as [-> _].
      by apply forced_literals_occur.
  - assert (0 ∉ determine_literals g) as H0 by (intros ?; by apply HL, Hsub).
    assert (determine_literals g' ⊆ L) as Hsub'.
    { intros m [Hm _]%(literals_simplify _ _ _ _ _ Hs). by apply Hsub. }
    pose proof (consistent_simplify _ _ _ _ _ Hs H0 Hemp Hset Hcon) as Hcon'.
    pose proof (settled_simplify _ _ _ _ _ Hs Hset) as Hset'.
    apply elem_of_difference in Hx as [HxL Hxpa].
    destruct (IH HL) with (sol := sol) as [Hc Hin]; try done.
    + intros m [Hm _]%literals_remove_literal. by apply Hsub'.
    + by apply settled_remove_literal.
    + intros l Hl Hnl.
      apply elem_of_union in Hl as [Hl| ->%elem_of_singleton].
      * apply elem_of_union in Hnl as [Hnl|Hnl%elem_of_singleton].
        -- by apply (Hcon' l).
        -- apply Hxpa. by replace x with l by lia.
      * rewrite Z.opp_involutive in Hnl.
        apply elem_of_union in Hnl as [Hnl|Hnl%elem_of_singleton]; [done|].
        apply HL. by replace 0 with x by lia.
    + split; [done|]. intros l Hl. destruct (Hin l Hl) as [Hl'|?]; [|by right].
      apply elem_of_union in Hl' as [Hl'| ->%elem_of_singleton].
      * apply elem_of_union in Hl' as [?|Hl']; [by left|]. right; left.
        apply Hsub. apply simplify_spec in Hs as [-> _].
        by apply forced_literals_occur.
      * right; right. by rewrite Z.opp_involutive.
  - assert (0 ∉ determine_literals g) as H0 by (intros ?; by apply HL, Hsub).
    assert (determine_literals g' ⊆ L) as Hsub'.
    { intros m [Hm _]%(literals_simplify _ _ _ _ _ Hs). by apply Hsub. }
    pose proof (consistent_simplify _ _ _ _ _ Hs H0 Hemp Hset Hcon) as Hcon'.
    pose proof (settled_simplify _ _ _ _ _ Hs Hset) as Hset'.
    apply elem_of_difference in Hx as [HxL Hxpa].
    destruct (decide ((- x) ∈ pa ∪ S)) as [Hnx|Hnx].
    { (* the variable of [x] is already assigned: both branches search
         the same formula, and the first one has refuted it *)
      exfalso. destruct (Hset' _ Hnx) as [Hg1 Hg2].
      rewrite Z.opp_involutive in Hg2.
      destruct (search_satisfiable L _ _ _ H2) as [v Hv]; try done.
      { intros [? _]%literals_remove_literal. by apply HL, Hsub'. }
      apply (search_refutes L _ _ _ H1 eq_refl v).
      rewrite remove_literal_absent in Hv by done.
      rewrite remove_literal_absent; [done|done|].
      by rewrite Z.opp_involutive. }
    destruct (IH HL) with (sol := sol) as [Hc Hin]; try done.
    + intros m [Hm _]%literals_remove_literal. by apply Hsub'.
    + by apply settled_remove_literal.
    + intros l Hl Hnl.
      apply elem_of_union in Hl as [Hl| ->%elem_of_singleton].
      * apply elem_of_union in Hnl as [Hnl|Hnl%elem_of_singleton].
        -- by apply (Hcon' l).
        -- apply Hnx. by replace (- x) with l by lia.
      * apply elem_of_union in Hnl as [Hnl|Hnl%elem_of_singleton]; [done|].
        apply HL. by replace 0 with x by lia.
    + split; [done|]. intros l Hl. destruct (Hin l Hl) as [Hl'|?]; [|by right].
      apply elem_of_union in Hl' as [Hl'| ->%elem_of_singleton].
      * apply elem_of_union in Hl' as [?|Hl']; [by left|]. right; left.
        apply Hsub. apply simplify_spec in Hs as [-> _].
        by apply forced_literals_occur.
      * by right; left.
Qed.
End consistency.

(** ** The contract of [solve] *)

Section contract.
Implicit Types (f : list (list Z)) (A : gset Z) (sol : list Z).

Lemma elem_of_variable_universe f l :
  l ∈ determine_literals f → Z.abs l ∈ variable_universe f.
Proof. intros Hl. unfold variable_universe. apply elem_of_map. eauto. Qed.

(** A returned [solve] is a terminating search from the empty
    assignment. *)
Lemma run_search fuel rng f b sol :
  report (run fuel rng f) = Some (b, sol) →
  search (determine_literals f) f ∅
    (if b then Some (list_to_set sol) else None).
Proof.
  unfold report, run, solve, start, mbind, method_bind, bind.
  destruct (backtrack fuel _ _ _) as [b' self'| |] eqn:Hrun; [|done|done].
  simpl. intros [= <- <-]. by apply backtrack_search in Hrun as [_ Hrun].
Qed.

Lemma satisfies_models f A :
  assignment_over (variable_universe f) A → satisfies A f →
  models (valuation_of A) f.
Proof.
  intros [_ Hone] Hsat c Hc. destruct (Hsat c Hc) as (l & Hl & HA).
  exists l. split; [done|].
  assert (l ∈ determine_literals f) as Hocc
    by (apply elem_of_determine_literals; eauto).
  apply elem_of_variable_universe, Hone in Hocc.
  unfold lit_true, valuation_of.
  destruct (decide (0 < l)) as [Hpos|Hpos]; [by apply bool_decide_eq_true|].
  destruct (decide (l < 0)) as [Hneg|Hneg].
  - apply negb_true_iff, bool_decide_eq_false.
    rewrite Z.abs_neq in Hocc by lia.
    rewrite Z.opp_involutive in Hocc. by destruct Hocc as [[_ ?]|[? _]].
  - replace l with 0 in * by lia. simpl in Hocc.
    by destruct Hocc as [[? ?]|[? ?]].
Qed.
End contract.

(** ** Claims about [solve] *)

(** C1 (soundness).  Whenever [solve] reports [satisfied = True], every
    clause of the formula it was given contains a literal of the recorded
    solution. *)
Theorem solve_sound fuel rng (f : list (list Z)) (sol : list Z) :
  report (run fuel rng f) = Some (true, sol) →
  ∀ c, c ∈ f → ∃ l, l ∈ c ∧ l ∈ sol.
Proof.
  intros Hrun%run_search c Hc.
  destruct (search_covers _ f f ∅ _ Hrun (covered_refl f) _ eq_refl c Hc)
    as (l & Hl & Hsol).
  exists l. split; [done|]. by apply elem_of_list_to_set in Hsol.
Qed.

(** The run on [[1, 2], [-1]] reports [True] with the solution [-1; 2]. *)
Lemma solve_sound_witness :
  report (run 1 (λ _, 0%nat) [[1; 2]; [-1]]) = Some (true, [-1; 2]) ∧
  ∀ c, c ∈ [[1; 2]; [-1]] → ∃ l, l ∈ c ∧ l ∈ [-1; 2].
Proof.
  split; [vm_compute; reflexivity|].
  apply (solve_sound 1 (λ _, 0%nat)). vm_compute. reflexivity.
Defined.

(** C2 (completeness).  Whenever [solve] reports [satisfied = False], no
    assignment that chooses one polarity for every variable of the
    Variable Universe contains a literal of every clause. *)
Theorem solve_complete fuel rng (f : list (list Z)) (sol : list Z) :
  report (run fuel rng f) = Some (false, sol) →
  ∀ A, assignment_over (variable_universe f) A → ¬ satisfies A f.
Proof.
  intros Hrun%run_search A HA Hsat.
  apply (search_refutes _ _ _ _ Hrun eq_refl (valuation_of A)).
  by apply satisfies_models.
Qed.

(** The run on [[1], [-1]] reports [False]. *)
Lemma solve_complete_witness :
  report (run 1 (λ _, 0%nat) [[1]; [-1]]) = Some (false, []) ∧
  ∀ A, assignment_over (variable_universe [[1]; [-1]]) A →
    ¬ satisfies A [[1]; [-1]].
Proof.
  split; [vm_compute; reflexivity|].
  apply (solve_complete 1 (λ _, 0%nat) _ []). vm_compute. reflexivity.
Defined.

Section solution_list.
Implicit Types (g : list (list Z)) (pa : gset Z) (self : Solver).

(** The recorded list enumerates a set: it has no repetition. *)
Lemma backtrack_NoDup fuel g pa self self' :
  backtrack fuel g pa self = Ret true self' → NoDup (solution self').
Proof.
  revert g pa self self'.
  induction fuel as [|fuel IH]; intros g pa self self'; [done|].
  rewrite backtrack_S. cbv zeta.
  case_bool_decide.
  { intros [= <-]. simpl. rewrite iteration_order_perm. apply NoDup_elements. }
  case_bool_decide; [done|].
  destruct (random_choice _ _) as [x self1| |]; [|done|done].
  destruct (backtrack fuel _ _ self1) as [[] self2| |] eqn:H1; [| |done|done].
  - intros [= <-]. by apply IH in H1.
  - apply IH.
Qed.

Lemma run_NoDup fuel rng f sol :
  report (run fuel rng f) = Some (true, sol) → NoDup sol.
Proof.
  unfold report, run, solve, start, mbind, method_bind, bind.
  destruct (backtrack fuel _ _ _) as [b' self'| |] eqn:Hrun; [|done|done].
  simpl. intros [= -> <-]. by apply backtrack_NoDup in Hrun.
Qed.
End solution_list.

(** C3, as stated, fails: on [[1, 2], [1, -2]] the unit-free formula is
    emptied by the pure literal [1] alone, and the recorded solution [1]
    decides nothing about the variable [2]. *)
Lemma solve_total_assignment_counterexample :
  ¬ (∀ fuel rng (f : list (list Z)) (sol : list Z),
       report (run fuel rng f) = Some (true, sol) →
       assignment_over (variable_universe f) (list_to_set sol)).
Proof.
  intros H.
  destruct (H 1%nat (λ _, 0%nat) [[1; 2]; [1; -2]] [1]) as [_ Hone];
    [vm_compute; reflexivity|].
  destruct (Hone 2) as [[H2 _]|[_ H2]].
  - vm_compute. reflexivity.
  - vm_compute in H2. discriminate.
  - vm_compute in H2. discriminate.
Qed.

(** C3 (amended).  On a formula without the literal [0], whenever [solve]
    reports [satisfied = True] the recorded solution lists each literal
    once, all of them over variables of the Variable Universe, and never
    a literal together with its negation: at most one polarity per
    variable.  Variables may be left undecided. *)
Theorem solve_partial_assignment fuel rng (f : list (list Z)) (sol : list Z) :
  0 ∉ determine_literals f →
  report (run fuel rng f) = Some (true, sol) →
  NoDup sol ∧
  (∀ l, l ∈ sol → Z.abs l ∈ variable_universe f) ∧
  (∀ l, l ∈ sol → (- l) ∉ sol).
Proof.
  intros H0 Hrun. split; [by eapply run_NoDup|].
  apply run_search in Hrun.
  destruct (search_consistent _ f ∅ _ Hrun H0) with (sol := list_to_set sol
    : gset Z) as [Hcon Hin]; try done.
  split.
  - intros l Hl. destruct (Hin l) as [Hl'|[Hl'|Hl']].
    + by apply elem_of_list_to_set.
    + by apply not_elem_of_empty in Hl'.
    + by apply elem_of_variable_universe.
    + rewrite <- Z.abs_opp. by apply elem_of_variable_universe.
  - intros l Hl Hnl. apply (Hcon l); by apply elem_of_list_to_set.
Qed.

(** The run on [[1, 2], [1, -2]] reports [True] with the solution [1]. *)
Lemma solve_partial_assignment_witness :
  (0 ∉ determine_literals [[1; 2]; [1; -2]]) ∧
  report (run 1 (λ _, 0%nat) [[1; 2]; [1; -2]]) = Some (true, [1]) ∧
  NoDup [1] ∧
  (∀ l, l ∈ [1] → Z.abs l ∈ variable_universe [[1; 2]; [1; -2]]) ∧
  (∀ l, l ∈ [1] → (- l) ∉ [1]).
Proof.
  assert (0 ∉ determine_literals [[1; 2]; [1; -2]]) as H0
    by (intros H; vm_compute in H; discriminate).
  assert (report (run 1 (λ _, 0%nat) [[1; 2]; [1; -2]]) = Some (true, [1]))
    as Hrun by (vm_compute; reflexivity).
  split; [exact H0|]. split; [exact Hrun|].
  exact (solve_partial_assignment 1 (λ _, 0%nat) _ _ H0 Hrun).
Defined.

(** ** Branching on a variable that is already assigned

    Line 147 draws the branch literal from [self.literals -
    partial_assignment], a difference of sets of signed literals: a
    literal whose negation was assigned remains a candidate. *)

(** C4, evaluated.  On [[1, 2, 3], [-1, 2, 3], [2, -3], [-2, 3], [-2, -3]]
    with the random choice returning [1] at the top, [1] again one level
    below and [-3] afterwards, the first branch of the second choice (on
    [-1], already assigned) fails and the sixth invocation of [backtrack]
    receives a partial assignment that contains both [1] and [-1]. *)
Theorem backtrack_receives_both_polarities :
  ∃ g pa,
    calls_of (run 10 revisiting_draws revisiting_formula) !! 5%nat
    = Some (g, pa) ∧
    1 ∈ pa ∧ (- 1) ∈ pa.
Proof.
  eexists _, _. split; [vm_compute; reflexivity|].
  split; vm_compute; reflexivity.
Qed.

Section divergence.
Implicit Types (self : Solver).

Lemma random_choice_unfold (X : gset Z) self y ys :
  elements X = y :: ys →
  random_choice X self =
  Ret (pick (entropy self 0%nat) (y :: ys) y)
    (mkSolver (cnf self) (literals self) (satisfied self) (solution self)
       (backtrack_count self) (recursion_count self)
       (λ n, entropy self (S n)) (calls self)).
Proof. unfold random_choice. by intros ->. Qed.

(** Below the first branch the call repeats itself: same formula, same
    partial assignment, one level deeper. *)
Lemma stubborn_loop fuel self :
  entropy self = stubborn_draws →
  literals self = determine_literals stubborn_formula →
  backtrack fuel stubborn_residue {[ -1 ]} self = OutOfFuel.
Proof.
  revert self. induction fuel as [|fuel IH]; intros self He HL; [done|].
  rewrite backtrack_S, He, HL. cbv zeta.
  replace (simplify (stubborn_draws 0%nat) stubborn_residue)
    with (stubborn_residue, ∅ : gset Z) by (vm_compute; reflexivity).
  unfold fst, snd.
  replace (bool_decide (length stubborn_residue = 0%nat)) with false
    by (vm_compute; reflexivity).
  replace (bool_decide (0%nat ∈ length <$> stubborn_residue)) with false
    by (vm_compute; reflexivity).
  erewrite random_choice_unfold by (vm_compute; reflexivity).
  simpl entropy.
  replace (pick _ _ _) with 1 by (vm_compute; reflexivity).
  replace (remove_literal stubborn_residue (- 1)) with stubborn_residue
    by (vm_compute; reflexivity).
  replace ({[ -1 ]} ∪ ∅ ∪ {[ - 1 ]}) with ({[ -1 ]} : gset Z)
    by (vm_compute; reflexivity).
  by rewrite IH.
Qed.
End divergence.

(** C5, evaluated.  The formula [[1, 2, 3], [-1, 2, 3], [-2, -3]] has
    three variables; when the random choice keeps returning the literal
    [1], whose negation is assigned by the first branch, every nested call
    repeats the previous one, and no depth of recursion reaches a terminal
    check. *)
Theorem backtrack_depth_unbounded :
  size (variable_universe stubborn_formula) = 3%nat ∧
  ∀ fuel, run fuel stubborn_draws stubborn_formula = OutOfFuel.
Proof.
  split; [vm_compute; reflexivity|].
  intros [|fuel]; [done|].
  unfold run, solve, start, mbind, method_bind, bind.
  change (cnf (DPLL_init stubborn_formula stubborn_draws))
    with stubborn_formula.
  rewrite backtrack_S. cbv zeta.
  change (entropy (DPLL_init stubborn_formula stubborn_draws))
    with stubborn_draws.
  replace (simplify (stubborn_draws 0%nat) stubborn_formula)
    with (stubborn_formula, ∅ : gset Z) by (vm_compute; reflexivity).
  unfold fst, snd.
  replace (bool_decide (length stubborn_formula = 0%nat)) with false
    by (vm_compute; reflexivity).
  replace (bool_decide (0%nat ∈ length <$> stubborn_formula)) with false
    by (vm_compute; reflexivity).
  erewrite random_choice_unfold by (vm_compute; reflexivity).
  simpl entropy.
  replace (pick _ _ _) with 1 by (vm_compute; reflexivity).
  replace (remove_literal stubborn_formula (- 1)) with stubborn_residue
    by (vm_compute; reflexivity).
  replace (∅ ∪ ∅ ∪ {[ - 1 ]}) with ({[ -1 ]} : gset Z)
    by (vm_compute; reflexivity).
  by rewrite stubborn_loop.
Qed.

(** ** Claims about the simplification rules *)

Lemma remove_clauses_with_literal_drop f l :
  remove_clauses_with_literal f l = drop_clauses_containing l f.
Proof.
  unfold remove_clauses_with_literal.
  induction f as [|c f IH]; [done|]. simpl.
  destruct (decide (l ∈ c)).
  - by rewrite filter_cons_False by (intros Hn; by apply Hn).
  - rewrite filter_cons_True by done. by f_equal.
Qed.

Lemma filter_delete_literal m c :
  filter (λ x, x ≠ m) c = delete_literal m c.
Proof.
  induction c as [|x c IH]; [done|]. simpl.
  destruct (decide (x = m)).
  - by rewrite filter_cons_False by (intros Hn; by apply Hn).
  - rewrite filter_cons_True by done. by f_equal.
Qed.

(** C6.  [remove_literal f l] is the formula obtained by dropping the
    clauses that contain [l] and then deleting [-l] from the remaining
    ones.  No clause of the result contains [l] or [-l]; the result
    matches, clause by clause and in order, the clauses of [f] without
    [l], each one keeping its literals other than [-l] in their order. *)
Theorem remove_literal_composition (f : list (list Z)) (l : Z) :
  remove_literal f l = drop_then_shorten f l ∧
  (∀ c, c ∈ remove_literal f l → (l ∉ c) ∧ (- l) ∉ c) ∧
  remove_clauses_with_literal f l `sublist_of` f ∧
  (∀ c, c ∈ remove_clauses_with_literal f l ↔ c ∈ f ∧ l ∉ c) ∧
  Forall2 (λ c c', c' `sublist_of` c ∧ ∀ m, m ∈ c' ↔ m ∈ c ∧ m ≠ - l)
    (remove_clauses_with_literal f l) (remove_literal f l).
Proof.
  split; [|split; [|split; [|split]]].
  - unfold remove_literal, drop_then_shorten, shorten_clauses_with_literal.
    rewrite remove_clauses_with_literal_drop.
    induction (drop_clauses_containing l f) as [|c g IH]; [done|].
    rewrite fmap_cons. simpl. by rewrite filter_delete_literal, IH.
  - intros c' (c & Hc & Hl & ->)%elem_of_remove_literal. split.
    + by intros [_ ?]%list_elem_of_filter.
    + by intros [? _]%list_elem_of_filter.
  - apply sublist_filter.
  - intros c. unfold remove_clauses_with_literal.
    rewrite list_elem_of_filter. tauto.
  - unfold remove_literal, shorten_clauses_with_literal.
    apply Forall2_fmap_r, Forall_Forall2_diag, Forall_forall.
    intros c _. simpl. split; [apply sublist_filter|].
    intros m. rewrite list_elem_of_filter. tauto.
Qed.

(** Two commitments commute unless they are opposite literals. *)
Lemma remove_literal_comm (g : list (list Z)) (a b : Z) :
  a ≠ - b →
  remove_literal (remove_literal g a) b = remove_literal (remove_literal g b) a.
Proof.
  intros Hab. assert (b ≠ - a) as Hba by lia.
  assert (∀ h x c, remove_literal (c :: h) x =
    if decide (x ∈ c) then remove_literal h x
    else filter (λ y, y ≠ - x) c :: remove_literal h x) as Hcons.
  { intros h x c. unfold remove_literal, shorten_clauses_with_literal,
      remove_clauses_with_literal.
    destruct (decide (x ∈ c)).
    - by rewrite filter_cons_False by (intros Hn; by apply Hn).
    - by rewrite filter_cons_True by done. }
  induction g as [|c g IH]; [done|].
  rewrite !Hcons.
  destruct (decide (a ∈ c)) as [Ha|Ha], (decide (b ∈ c)) as [Hb|Hb];
    rewrite ?Hcons.
  - done.
  - rewrite decide_True; [done|]. by apply list_elem_of_filter.
  - rewrite decide_True; [done|]. by apply list_elem_of_filter.
  - rewrite !decide_False by (by intros [_ ?]%list_elem_of_filter).
    f_equal; [|done]. rewrite !list_filter_filter.
    apply list_filter_iff. tauto.
Qed.

(** Committing a list of literals without two opposite ones gives the
    same formula in any order. *)
Lemma foldl_remove_literal_perm (p q : list Z) :
  p ≡ₚ q → (∀ l, l ∈ p → l ≠ 0 → (- l) ∉ p) →
  ∀ g, foldl remove_literal g p = foldl remove_literal g q.
Proof.
  induction 1 as [|x p q Hpq IH|x y p|p q r Hpq IH1 Hqr IH2]; intros Hp g.
  - done.
  - simpl. apply IH. intros l Hl Hl0 Hnl.
    apply (Hp l); [by right|done|by right].
  - simpl. destruct (decide (y = x)) as [->|Hne]; [done|].
    rewrite (remove_literal_comm g y x); [done|].
    intros ->. destruct (decide (x = 0)) as [->|Hx]; [done|].
    apply (Hp x); [right; left|done|left].
  - rewrite IH1 by done. apply IH2.
    intros l Hl Hl0 Hnl. apply (Hp l); [|done|]; by rewrite Hpq.
Qed.

Lemma no_opposite_check (S : gset Z) :
  no_opposite_literalsb S = true → no_opposite_literals S.
Proof.
  unfold no_opposite_literalsb. rewrite forallb_forall.
  intros Hall l Hl Hl0.
  specialize (Hall l). rewrite <- list_elem_of_In, elem_of_elements in Hall.
  apply Hall, orb_true_iff in Hl as [Hz|Hn].
  - by apply bool_decide_eq_true in Hz.
  - by apply bool_decide_eq_true in Hn.
Qed.

Lemma simplify_any_order (f : list (list Z)) (r1 r2 : nat) :
  no_opposite_literals (forced_literals f) → simplify r1 f = simplify r2 f.
Proof.
  intros Hopp. unfold simplify. f_equal.
  apply foldl_remove_literal_perm.
  - by rewrite !iteration_order_perm.
  - intros l Hl Hl0. rewrite elem_of_iteration_order in Hl |- *.
    by apply Hopp.
Qed.

(** C7, as stated, fails: the forced set of [[1], [-1], [1, 2], [-2, 1]]
    is [{1, -1}]; committing [1] then [-1] leaves [[[]]], committing [-1]
    then [1] leaves [[[], [2], [-2]]]. *)
Lemma simplify_order_counterexample :
  ¬ (∀ (f : list (list Z)) (p q : list Z),
       p ≡ₚ elements (forced_literals f) →
       q ≡ₚ elements (forced_literals f) →
       foldl remove_literal f p = foldl remove_literal f q).
Proof.
  intros H.
  specialize (H [[1]; [-1]; [1; 2]; [-2; 1]] [1; -1] [-1; 1]).
  assert (elements (forced_literals [[1]; [-1]; [1; 2]; [-2; 1]]) = [-1; 1])
    as HS by (vm_compute; reflexivity).
  rewrite HS in H.
  assert (foldl remove_literal [[1]; [-1]; [1; 2]; [-2; 1]] [1; -1] =
          foldl remove_literal [[1]; [-1]; [1; 2]; [-2; 1]] [-1; 1]) as Heq.
  { apply H; [apply perm_swap|done]. }
  vm_compute in Heq. discriminate.
Qed.

(** C7 (amended).  When the forced set of [f] holds no two opposite
    literals, committing its elements in any two orders yields the same
    formula, and the result of [simplify] does not depend on the
    iteration order. *)
Theorem simplify_order_invariant (f : list (list Z)) :
  no_opposite_literals (forced_literals f) →
  (∀ p q, p ≡ₚ elements (forced_literals f) →
          q ≡ₚ elements (forced_literals f) →
          foldl remove_literal f p = foldl remove_literal f q) ∧
  (∀ r1 r2, simplify r1 f = simplify r2 f).
Proof.
  intros Hopp. split; [|intros r1 r2; by apply simplify_any_order].
  intros p q Hp Hq. apply foldl_remove_literal_perm; [by rewrite Hp, Hq|].
  intros l Hl Hl0. rewrite Hp, elem_of_elements in Hl |- *. by apply Hopp.
Qed.

(** The forced set of [[1, 2], [-1]] is [{-1, 2}]. *)
Lemma simplify_order_invariant_witness :
  no_opposite_literals (forced_literals [[1; 2]; [-1]]) ∧
  (∀ p q, p ≡ₚ elements (forced_literals [[1; 2]; [-1]]) →
          q ≡ₚ elements (forced_literals [[1; 2]; [-1]]) →
          foldl remove_literal [[1; 2]; [-1]] p =
          foldl remove_literal [[1; 2]; [-1]] q) ∧
  (∀ r1 r2, simplify r1 [[1; 2]; [-1]] = simplify r2 [[1; 2]; [-1]]).
Proof.
  assert (no_opposite_literals (forced_literals [[1; 2]; [-1]])) as Hopp
    by (apply no_opposite_check; vm_compute; reflexivity).
  split; [exact Hopp|].
  exact (simplify_order_invariant [[1; 2]; [-1]] Hopp).
Defined.

(** C8.  On [[1, 2], [-1]] the first pass of [simplify] forces the unit
    literal [-1] and the pure literal [2] and leaves no clause, whatever
    the iteration order; [solve] reports [satisfied = True] with the
    solution [{-1, 2}] after a single invocation of [backtrack], on every
    run. *)
Theorem scenario_unit_and_pure :
  (∀ r, simplify r [[1; 2]; [-1]] = ([], {[ -1; 2 ]})) ∧
  ∀ fuel rng, ∃ sol,
    report (run (S fuel) rng [[1; 2]; [-1]]) = Some (true, sol) ∧
    sol ≡ₚ [-1; 2] ∧
    calls_of (run (S fuel) rng [[1; 2]; [-1]]) = [([[1; 2]; [-1]], ∅)].
Proof.
  assert (∀ r, simplify r [[1; 2]; [-1]] = ([], {[ -1; 2 ]})) as Hs.
  { intros r. rewrite (simplify_any_order _ r 0%nat).
    - vm_compute. reflexivity.
    - apply no_opposite_check. vm_compute. reflexivity. }
  split; [done|]. intros fuel rng.
  exists (iteration_order (rng 1%nat) {[ -1; 2 ]}).
  unfold run, solve, start, mbind, method_bind, bind.
  change (cnf (DPLL_init [[1; 2]; [-1]] rng)) with [[1; 2]; [-1]].
  rewrite backtrack_S. cbv zeta.
  change (entropy (DPLL_init [[1; 2]; [-1]] rng)) with rng.
  rewrite Hs. unfold fst, snd.
  replace (∅ ∪ {[ -1; 2 ]}) with ({[ -1; 2 ]} : gset Z)
    by (vm_compute; reflexivity).
  simpl. split; [done|]. split; [|done].
  rewrite iteration_order_perm. by vm_compute.
Qed.

(** C9.  A formula without unit clauses and without pure literals is
    returned by [simplify] as it is, with an empty set of removed
    literals. *)
Theorem simplify_fixed_point (r : nat) (f : list (list Z)) :
  determine_unit_clauses f = ∅ → determine_pure_literals f = ∅ →
  simplify r f = (f, ∅).
Proof.
  intros Hu Hp. unfold simplify. rewrite Hu, Hp, union_empty_r_L.
  unfold iteration_order. by rewrite elements_empty.
Qed.

(** [[1, 2], [-1, -2]] has no unit clause and no pure literal. *)
Lemma simplify_fixed_point_witness :
  determine_unit_clauses [[1; 2]; [-1; -2]] = ∅ ∧
  determine_pure_literals [[1; 2]; [-1; -2]] = ∅ ∧
  simplify 0 [[1; 2]; [-1; -2]] = ([[1; 2]; [-1; -2]], ∅).
Proof.
  assert (determine_unit_clauses [[1; 2]; [-1; -2]] = ∅) as Hu
    by (vm_compute; reflexivity).
  assert (determine_pure_literals [[1; 2]; [-1; -2]] = ∅) as Hp
    by (vm_compute; reflexivity).
  split; [exact Hu|]. split; [exact Hp|].
  exact (simplify_fixed_point 0 _ Hu Hp).
Defined.

(** ** Safety of the random choice *)

(** At a branch point some clause still has a literal; it belongs to the
    literals of the original formula and not to the partial assignment. *)
Lemma branch_candidate (L : gset Z) (g : list (list Z)) (pa : gset Z) :
  determine_literals g ⊆ L → settled g pa → g ≠ [] → [] ∉ g →
  L ∖ pa ≠ ∅.
Proof.
  intros Hsub Hset Hne Hemp. destruct g as [|[|m c] g]; [done| |].
  - exfalso. apply Hemp. left.
  - assert (m ∈ determine_literals ((m :: c) :: g)) as Hm.
    { apply elem_of_determine_literals. exists (m :: c). split; left. }
    intros Heq. apply (not_elem_of_empty (C := gset Z) m). rewrite <- Heq.
    apply elem_of_difference. split; [by apply Hsub|].
    intros Hpa. by destruct (Hset m Hpa).
Qed.

Lemma backtrack_never_raises fuel (g : list (list Z)) (pa : gset Z) self :
  determine_literals g ⊆ literals self → settled g pa →
  backtrack fuel g pa self ≠ ValueError.
Proof.
  revert g pa self. induction fuel as [|fuel IH]; intros g pa self Hsub Hset;
    [done|].
  rewrite backtrack_S.
  destruct (simplify (entropy self 0%nat) g) as [g' S] eqn:Hs. cbv zeta.
  unfold fst, snd.
  case_bool_decide as Hnil; [done|].
  case_bool_decide as Hemp; [done|].
  rewrite zero_length_clause in Hemp.
  assert (g' ≠ []) as Hne by (by intros ->).
  assert (determine_literals g' ⊆ literals self) as Hsub'.
  { intros m [Hm _]%(literals_simplify _ _ _ _ _ Hs). by apply Hsub. }
  pose proof (settled_simplify _ _ _ _ _ Hs Hset) as Hset'.
  destruct (random_choice _ _) as [x self1| |] eqn:Hx; [| |done].
  - apply random_choice_Ret in Hx as [_ HL1]. simpl in HL1.
    destruct (backtrack fuel _ _ self1) as [[] self2| |] eqn:H1; [done| | |done].
    + apply backtrack_search in H1 as [HL2 _].
      apply IH; [|by apply settled_remove_literal].
      rewrite HL2, HL1.
      intros m [Hm _]%literals_remove_literal. by apply Hsub'.
    + exfalso. revert H1. apply IH; [|by apply settled_remove_literal].
      rewrite HL1.
      intros m [Hm _]%literals_remove_literal. by apply Hsub'.
  - exfalso. apply random_choice_ValueError in Hx.
    by apply (branch_candidate _ g' (pa ∪ S)) in Hx.
Qed.

(** C10.  No run of [solve] raises [ValueError], whatever the formula,
    the random draws and the depth: at every branch point that a run
    reaches, [self.literals - partial_assignment] is not empty.  The
    difference is between sets of signed literals, so that a literal
    whose negation is assigned stays a candidate: [1] is a candidate of
    [[1, -1], [2]] under the partial assignment [{-1}]. *)
Theorem random_choice_never_empty :
  (∀ fuel rng (f : list (list Z)), run fuel rng f ≠ ValueError) ∧
  1 ∈ determine_literals [[1; -1]; [2]] ∖ {[ -1 ]}.
Proof.
  split.
  - intros fuel rng f. unfold run, solve, start, mbind, method_bind, bind.
    destruct (backtrack fuel _ _ _) as [b self'| |] eqn:Hrun; [done| |done].
    exfalso. revert Hrun. apply backtrack_never_raises; [done|].
    intros p Hp. by apply not_elem_of_empty in Hp.
  - vm_compute. reflexivity.
Qed.

(** * Further properties of the code *)

(** ** The analysis functions *)


(** X2.  [determine_unit_clauses] returns exactly the literals [l] for
    which [[l]] is a clause of the formula; all of them are literals of
    the formula, and a formula whose clauses all have another length has
    none. *)
Theorem unit_clauses_exact (f : list (list Z)) :
  (∀ l, l ∈ determine_unit_clauses f ↔ [l] ∈ f) ∧
  determine_unit_clauses f ⊆ determine_literals f ∧
  (Forall (λ c, length c ≠ 1%nat) f ↔ determine_unit_clauses f = ∅).
Proof.
  split; [|split].
  - intros l. apply elem_of_determine_unit_clauses.
  - intros l Hl%elem_of_determine_unit_clauses.
    apply elem_of_determine_literals. exists [l]. split; [done|].
    by apply list_elem_of_singleton.
  - rewrite Forall_forall. split.
    + intros Hlen. apply set_eq. intros l.
      rewrite elem_of_determine_unit_clauses. split; [|by intros ?%not_elem_of_empty].
      intros Hl. by destruct (Hlen _ Hl).
    + intros Hempty c Hc Hlen. destruct c as [|l [|m c]]; try done.
      apply (not_elem_of_empty (C := gset Z) l). rewrite <- Hempty.
      by apply elem_of_determine_unit_clauses.
Qed.

(** X3.  [remove_literal] is idempotent, and it returns its argument
    unchanged exactly when neither the literal nor its negation occurs in
    the formula. *)
Theorem remove_literal_idempotent (f : list (list Z)) (l : Z) :
  remove_literal (remove_literal f l) l = remove_literal f l ∧
  (remove_literal f l = f ↔
   (l ∉ determine_literals f) ∧ (- l) ∉ determine_literals f).
Proof.
  split.
  - apply remove_literal_absent;
      intros (_ & ? & ?)%literals_remove_literal; [done|lia].
  - split.
    + intros Heq. split; intros Hl; rewrite <- Heq in Hl;
        apply literals_remove_literal in Hl as (_ & ? & ?); [done|lia].
    + intros [? ?]. by apply remove_literal_absent.
Qed.

(** X4.  For a literal other than [0] the two rules that make up
    [remove_literal] can be applied in either order: shortening the
    clauses with [-l] first and removing the clauses with [l] afterwards
    gives the same formula. *)
Theorem remove_literal_rules_commute (f : list (list Z)) (l : Z) :
  l ≠ 0 →
  remove_clauses_with_literal (shorten_clauses_with_literal f (- l)) l =
  remove_literal f l.
Proof.
  intros Hl. unfold remove_literal, remove_clauses_with_literal,
    shorten_clauses_with_literal.
  induction f as [|c f IH]; [done|].
  rewrite fmap_cons. destruct (decide (l ∈ c)) as [Hin|Hin].
  - rewrite !filter_cons_False; [done| |].
    + intros Hn. by apply Hn.
    + intros Hn. apply Hn. apply list_elem_of_filter. split; [lia|done].
  - rewrite !filter_cons_True; [|done|].
    + rewrite fmap_cons. by f_equal.
    + by intros [_ ?]%list_elem_of_filter.
Qed.

Lemma remove_literal_rules_commute_witness :
  1 ≠ 0 ∧
  remove_clauses_with_literal
    (shorten_clauses_with_literal [[1; 2]; [-1; 3]; [-1]] (- 1)) 1 =
  remove_literal [[1; 2]; [-1; 3]; [-1]] 1.
Proof.
  split; [lia|].
  apply (remove_literal_rules_commute [[1; 2]; [-1; 3]; [-1]] 1). lia.
Defined.

(** The literal [0] is its own negation, and for it the order matters. *)
Lemma remove_literal_rules_zero :
  remove_clauses_with_literal (shorten_clauses_with_literal [[0]] (- 0)) 0 ≠
  remove_literal [[0]] 0.
Proof. vm_compute. discriminate. Qed.

(** X5.  Under a valuation that makes [l] true, a formula and the formula
    that [remove_literal] returns for [l] have the same truth value. *)
Theorem remove_literal_conditions (v : Z → bool) (f : list (list Z)) (l : Z) :
  lit_true v l = true →
  (models v (remove_literal f l) ↔ models v f).
Proof.
  intros Hv. split.
  - intros Hm c Hc. destruct (decide (l ∈ c)) as [Hin|Hin]; [by exists l|].
    destruct (Hm (filter (λ x, x ≠ - l) c)) as (m & Hmc & Hvm).
    { apply elem_of_remove_literal. eauto. }
    apply list_elem_of_filter in Hmc as [_ Hmc]. eauto.
  - intros Hm. apply models_remove_literal; [done|].
    left. by apply lit_true_opp.
Qed.

Lemma remove_literal_conditions_witness :
  lit_true (λ _, true) 1 = true ∧
  (models (λ _, true) (remove_literal [[1; 2]; [-1; 3]] 1) ↔
   models (λ _, true) [[1; 2]; [-1; 3]]).
Proof.
  split; [reflexivity|].
  apply (remove_literal_conditions (λ _, true) [[1; 2]; [-1; 3]] 1).
  reflexivity.
Defined.

(** ** One pass of [simplify], continued *)

(** X6.  On a formula without the literal [0], one pass of [simplify]
    keeps satisfiability both ways, in every iteration order: the input
    has a model exactly when the returned formula has one. *)
Theorem simplify_equisatisfiable (r : nat) (f : list (list Z)) :
  0 ∉ determine_literals f →
  ((∃ v, models v f) ↔ (∃ v, models v (simplify r f).1)).
Proof.
  intros H0. destruct (simplify r f) as [g S] eqn:Hs. simpl. split.
  - intros [v Hv]. exists v. by apply (models_simplify v r f g S).
  - by apply (satisfiable_simplify r f g S).
Qed.

Lemma simplify_equisatisfiable_witness :
  (0 ∉ determine_literals [[1; 2]; [-1]]) ∧
  ((∃ v, models v [[1; 2]; [-1]]) ↔
   (∃ v, models v (simplify 0 [[1; 2]; [-1]]).1)).
Proof.
  assert (0 ∉ determine_literals [[1; 2]; [-1]]) as H0
    by (intros H; vm_compute in H; discriminate).
  split; [exact H0|].
  exact (simplify_equisatisfiable 0 [[1; 2]; [-1]] H0).
Defined.

(** The unit clause [[0]] is dropped, although no valuation makes the
    literal [0] true. *)
Lemma simplify_zero_literal :
  (simplify 0 [[0]]).1 = [] ∧ ¬ ∃ v, models v [[0]].
Proof.
  split; [vm_compute; reflexivity|].
  intros [v Hv]. destruct (Hv [0]) as (l & Hl & Hvl); [left|].
  apply list_elem_of_singleton in Hl as ->. by vm_compute in Hvl.
Qed.

(** X7.  The literals removed by [simplify] all occur in its input, and
    the returned formula mentions only literals of the input, none of the
    removed literals and none of their negations. *)
Theorem simplify_eliminates (r : nat) (f : list (list Z)) :
  (simplify r f).2 ⊆ determine_literals f ∧
  determine_literals (simplify r f).1 ⊆
    determine_literals f ∖ ((simplify r f).2 ∪ set_map Z.opp (simplify r f).2).
Proof.
  destruct (simplify r f) as [g S] eqn:Hs. simpl. split.
  - intros l Hl. apply simplify_spec in Hs as [-> _].
    by apply forced_literals_occur.
  - intros m Hm. apply (literals_simplify _ _ _ _ _ Hs) in Hm as [Hm Hne].
    apply elem_of_difference. split; [done|].
    intros [HS|(l & -> & HS)%elem_of_map]%elem_of_union.
    + by destruct (Hne m HS).
    + by destruct (Hne l HS).
Qed.





(** ** The search, continued *)

Lemma random_choice_Ret_state (X : gset Z) self x self' :
  random_choice X self = Ret x self' →
  x ∈ X ∧
  self' = mkSolver (cnf self) (literals self) (satisfied self)
    (solution self) (backtrack_count self) (recursion_count self)
    (λ n, entropy self (S n)) (calls self).
Proof.
  intros Hx. split; [by apply random_choice_Ret in Hx as [? _]|].
  revert Hx. unfold random_choice.
  destruct (elements X) as [|y ys]; [done|].
  unfold mbind, method_bind, bind, draw, mret, method_ret, ret.
  by intros [= _ <-].
Qed.

(** A conflict found by the first pass ends the run. *)
Lemma run_conflict_at_once fuel rng (f : list (list Z)) :
  [] ∈ (simplify (rng 0%nat) f).1 →
  run (S fuel) rng f =
  Ret tt (mkSolver f (determine_literals f) false [] 1 1
            (λ n, rng (S n)) [(f, ∅)]).
Proof.
  intros Hemp. unfold run, solve, start, mbind, method_bind, bind.
  change (cnf (DPLL_init f rng)) with f.
  rewrite backtrack_S. cbv zeta.
  change (entropy (DPLL_init f rng)) with rng.
  rewrite bool_decide_eq_false_2
    by (intros Hlen; destruct (simplify (rng 0%nat) f).1;
        [by apply elem_of_nil in Hemp|done]).
  rewrite bool_decide_eq_true_2 by (by apply zero_length_clause).
  reflexivity.
Qed.

(** X9.  A formula that contains an empty clause is reported
    unsatisfiable by the first invocation of [backtrack], on every run:
    one recursion, one backtrack, no solution recorded. *)
Theorem empty_clause_refuted (f : list (list Z)) :
  [] ∈ f →
  ∀ fuel rng, ∃ self',
    run (S fuel) rng f = Ret tt self' ∧
    satisfied self' = false ∧ solution self' = [] ∧
    recursion_count self' = 1%nat ∧ backtrack_count self' = 1%nat.
Proof.
  intros Hemp fuel rng. eexists. split.
  - apply run_conflict_at_once. unfold simplify. simpl.
    by apply empty_clause_foldl.
  - done.
Qed.

Lemma empty_clause_refuted_witness :
  [] ∈ [[1; 2]; []] ∧
  ∀ fuel rng, ∃ self',
    run (S fuel) rng [[1; 2]; []] = Ret tt self' ∧
    satisfied self' = false ∧ solution self' = [] ∧
    recursion_count self' = 1%nat ∧ backtrack_count self' = 1%nat.
Proof.
  assert ([] ∈ [[1; 2]; []]) as Hemp by (right; left).
  split; [exact Hemp|]. exact (empty_clause_refuted [[1; 2]; []] Hemp).
Defined.

(** X10.  A formula with two contradictory unit clauses [[l]] and [[-l]],
    [l] other than [0], is reported unsatisfiable by the first invocation
    of [backtrack], whatever the order in which [simplify] commits the
    forced literals. *)
Theorem contradictory_units_refuted (f : list (list Z)) (l : Z) :
  l ≠ 0 → [l] ∈ f → [- l] ∈ f →
  ∀ fuel rng, ∃ self',
    run (S fuel) rng f = Ret tt self' ∧
    satisfied self' = false ∧ solution self' = [] ∧
    recursion_count self' = 1%nat ∧ backtrack_count self' = 1%nat.
Proof.
  intros Hl Hp Hn fuel rng.
  assert ([] ∈ (simplify (rng 0%nat) f).1) as Hemp.
  { destruct (simplify (rng 0%nat) f) as [g S] eqn:Hs. simpl.
    apply (complementary_forced_conflict _ _ _ _ l Hs Hl).
    - apply simplify_spec in Hs as [-> _]. apply elem_of_union. left.
      by apply elem_of_determine_unit_clauses.
    - apply simplify_spec in Hs as [-> _]. apply elem_of_union. left.
      by apply elem_of_determine_unit_clauses. }
  eexists. split; [by apply run_conflict_at_once|done].
Qed.

Lemma contradictory_units_refuted_witness :
  1 ≠ 0 ∧ [1] ∈ [[1]; [- 1]; [2; 3]] ∧ [- 1] ∈ [[1]; [- 1]; [2; 3]] ∧
  ∀ fuel rng, ∃ self',
    run (S fuel) rng [[1]; [- 1]; [2; 3]] = Ret tt self' ∧
    satisfied self' = false ∧ solution self' = [] ∧
    recursion_count self' = 1%nat ∧ backtrack_count self' = 1%nat.
Proof.
  assert (1 ≠ 0) as Hl by lia.
  assert ([1] ∈ [[1]; [- 1]; [2; 3]]) as Hp by left.
  assert ([- 1] ∈ [[1]; [- 1]; [2; 3]]) as Hn by (right; left).
  split; [exact Hl|]. split; [exact Hp|]. split; [exact Hn|].
  exact (contradictory_units_refuted [[1]; [- 1]; [2; 3]] 1 Hl Hp Hn).
Defined.

(** X11.  On a formula without the literal [0], when [solve] reports
    [satisfied = True] the recorded solution is a model: the valuation
    that makes true the variables that the solution lists positively, and
    false all others, makes every clause true. *)
Theorem solution_is_model fuel rng (f : list (list Z)) (sol : list Z) :
  0 ∉ determine_literals f →
  report (run fuel rng f) = Some (true, sol) →
  models (valuation_of (list_to_set sol)) f.
Proof.
  intros H0 Hrun%run_search c Hc.
  destruct (search_covers _ f f ∅ _ Hrun (covered_refl f) _ eq_refl c Hc)
    as (l & Hl & Hsol).
  destruct (search_consistent _ f ∅ _ Hrun H0) with (sol := list_to_set sol
    : gset Z) as [Hcon _]; try done.
  exists l. split; [done|]. unfold lit_true, valuation_of.
  destruct (decide (0 < l)); [by apply bool_decide_eq_true|].
  destruct (decide (l < 0)).
  - apply negb_true_iff, bool_decide_eq_false. by apply Hcon.
  - exfalso. apply H0, elem_of_determine_literals. exists c.
    split; [done|]. by replace 0 with l by lia.
Qed.

Lemma solution_is_model_witness :
  (0 ∉ determine_literals [[1; 2]; [-1]]) ∧
  report (run 1 (λ _, 0%nat) [[1; 2]; [-1]]) = Some (true, [-1; 2]) ∧
  models (valuation_of (list_to_set [-1; 2])) [[1; 2]; [-1]].
Proof.
  assert (0 ∉ determine_literals [[1; 2]; [-1]]) as H0
    by (intros H; vm_compute in H; discriminate).
  assert (report (run 1 (λ _, 0%nat) [[1; 2]; [-1]]) = Some (true, [-1; 2]))
    as Hrun by (vm_compute; reflexivity).
  split; [exact H0|]. split; [exact Hrun|].
  exact (solution_is_model 1 (λ _, 0%nat) _ _ H0 Hrun).
Defined.

(** X12.  On a formula without the literal [0], the reported answer does
    not depend on the run: two runs that return, whatever their random
    choices and iteration orders, report the same [satisfied]. *)
Theorem answer_independent_of_run fuel1 fuel2 rng1 rng2
    (f : list (list Z)) (b1 b2 : bool) (sol1 sol2 : list Z) :
  0 ∉ determine_literals f →
  report (run fuel1 rng1 f) = Some (b1, sol1) →
  report (run fuel2 rng2 f) = Some (b2, sol2) →
  b1 = b2.
Proof.
  intros H0 H1%run_search H2%run_search.
  destruct b1, b2; try done; exfalso.
  - destruct (search_satisfiable _ _ _ _ H1) as [v Hv]; try done.
    by apply (search_refutes _ _ _ _ H2 eq_refl v).
  - destruct (search_satisfiable _ _ _ _ H2) as [v Hv]; try done.
    by apply (search_refutes _ _ _ _ H1 eq_refl v).
Qed.

Lemma answer_independent_of_run_witness :
  (0 ∉ determine_literals [[1; 2]; [-1; -2]]) ∧
  report (run 2 (λ _, 0%nat) [[1; 2]; [-1; -2]]) = Some (true, [-1; 2]) ∧
  report (run 2 (λ _, 1%nat) [[1; 2]; [-1; -2]]) = Some (true, [1; -2]) ∧
  true = true.
Proof.
  assert (0 ∉ determine_literals [[1; 2]; [-1; -2]]) as H0
    by (intros H; vm_compute in H; discriminate).
  assert (report (run 2 (λ _, 0%nat) [[1; 2]; [-1; -2]])
    = Some (true, [-1; 2])) as H1 by (vm_compute; reflexivity).
  assert (report (run 2 (λ _, 1%nat) [[1; 2]; [-1; -2]])
    = Some (true, [1; -2])) as H2 by (vm_compute; reflexivity).
  split; [exact H0|]. split; [exact H1|]. split; [exact H2|].
  exact (answer_independent_of_run _ _ _ _ _ _ _ _ _ H0 H1 H2).
Defined.

Lemma backtrack_false_solution fuel (g : list (list Z)) (pa : gset Z)
    self self' :
  backtrack fuel g pa self = Ret false self' → solution self' = solution self.
Proof.
  revert g pa self self'.
  induction fuel as [|fuel IH]; intros g pa self self'; [done|].
  rewrite backtrack_S. cbv zeta.
  case_bool_decide; [done|].
  case_bool_decide; [by intros [= <-]|].
  destruct (random_choice _ _) as [x self1| |] eqn:Hx; [|done|done].
  apply random_choice_Ret_state in Hx as [_ ->].
  destruct (backtrack fuel _ _ _) as [[] self2| |] eqn:H1; [done| |done|done].
  intros H2. apply IH in H1, H2. by rewrite H2, H1.
Qed.

(** X13.  When [solve] reports [satisfied = False], no solution was
    recorded: [self.solution] is still the empty list of the
    constructor. *)
Theorem unsatisfiable_records_nothing fuel rng (f : list (list Z))
    (sol : list Z) :
  report (run fuel rng f) = Some (false, sol) → sol = [].
Proof.
  unfold report, run, solve, start, mbind, method_bind, bind.
  destruct (backtrack fuel _ _ _) as [b self'| |] eqn:Hrun; [|done|done].
  simpl. intros [= -> <-]. by apply backtrack_false_solution in Hrun.
Qed.

Lemma unsatisfiable_records_nothing_witness :
  report (run 3 (λ _, 0%nat) [[1; 2]; [-1; 2]; [1; -2]; [-1; -2]])
    = Some (false, []) ∧
  ([] : list Z) = [].
Proof.
  assert (report (run 3 (λ _, 0%nat) [[1; 2]; [-1; 2]; [1; -2]; [-1; -2]])
    = Some (false, [])) as Hrun by (vm_compute; reflexivity).
  split; [exact Hrun|].
  exact (unsatisfiable_records_nothing 3 (λ _, 0%nat) _ _ Hrun).
Defined.

(** The two counters along a returned call: a call that returns [False]
    has made one recursion less than twice its backtracks; a call that
    returns [True] has made more. *)
Lemma backtrack_counters fuel (g : list (list Z)) (pa : gset Z)
    self b self' :
  backtrack fuel g pa self = Ret b self' →
  (backtrack_count self ≤ backtrack_count self')%nat ∧
  if b then
    (recursion_count self + 2 * backtrack_count self' + 1
     ≤ recursion_count self' + 2 * backtrack_count self)%nat
  else
    (recursion_count self' + 2 * backtrack_count self + 1
     = recursion_count self + 2 * backtrack_count self')%nat.
Proof.
  revert g pa self b self'.
  induction fuel as [|fuel IH]; intros g pa self b self'; [done|].
  rewrite backtrack_S. cbv zeta.
  case_bool_decide; [intros [= <- <-]; simpl; lia|].
  case_bool_decide; [intros [= <- <-]; simpl; lia|].
  destruct (random_choice _ _) as [x self1| |] eqn:Hx; [|done|done].
  apply random_choice_Ret_state in Hx as [_ ->].
  destruct (backtrack fuel _ _ _) as [[] self2| |] eqn:H1; [| |done|done].
  - intros [= <- <-]. apply IH in H1. simpl in H1. lia.
  - intros H2. apply IH in H1, H2. simpl in H1. destruct b; lia.
Qed.

(** X14.  After [solve], the counters of a fresh solver satisfy
    [recursion_count = 2 * backtrack_count - 1] when it reports
    [satisfied = False], and [recursion_count > 2 * backtrack_count] when
    it reports [satisfied = True]. *)
Theorem counters_after_solve fuel rng (f : list (list Z)) self' :
  run fuel rng f = Ret tt self' →
  if satisfied self' then
    (2 * backtrack_count self' < recursion_count self')%nat
  else
    (recursion_count self' + 1 = 2 * backtrack_count self')%nat.
Proof.
  unfold run, solve, start, mbind, method_bind, bind.
  destruct (backtrack fuel _ _ _) as [b self1| |] eqn:Hrun; [|done|done].
  intros [= <-]. apply backtrack_counters in Hrun as [_ Hrun].
  simpl in *. destruct b; lia.
Qed.

Lemma counters_after_solve_witness :
  ∃ self',
    run 3 (λ _, 0%nat) [[1; 2]; [-1; 2]; [1; -2]; [-1; -2]] = Ret tt self' ∧
    if satisfied self' then
      (2 * backtrack_count self' < recursion_count self')%nat
    else
      (recursion_count self' + 1 = 2 * backtrack_count self')%nat.
Proof.
  assert (∃ self',
    run 3 (λ _, 0%nat) [[1; 2]; [-1; 2]; [1; -2]; [-1; -2]] = Ret tt self')
    as [self' Hrun] by (vm_compute; eexists; reflexivity).
  exists self'. split; [exact Hrun|].
  exact (counters_after_solve 3 (λ _, 0%nat) _ self' Hrun).
Defined.






(** X17.  A formula in which no literal occurs is decided by the first
    invocation of [backtrack] without drawing a branch literal: [solve]
    reports [satisfied = True] when the formula has no clause and
    [satisfied = False] when it has (empty) clauses, and the solution is
    empty. *)
Theorem variable_free_formula (f : list (list Z)) :
  determine_literals f = ∅ →
  ∀ fuel rng,
    report (run (S fuel) rng f) = Some (bool_decide (f = []), []) ∧
    length (calls_of (run (S fuel) rng f)) = 1%nat.
Proof.
  intros Hlits fuel rng. destruct f as [|c f].
  - unfold run, solve, start, mbind, method_bind, bind.
    change (cnf (DPLL_init [] rng)) with ([] : list (list Z)).
    rewrite backtrack_S. cbv zeta.
    replace (simplify (entropy (DPLL_init [] rng) 0%nat) [])
      with ([] : list (list Z), ∅ : gset Z).
    + by vm_compute.
    + unfold simplify. replace (determine_unit_clauses [] ∪
        determine_pure_literals []) with (∅ : gset Z)
        by (vm_compute; reflexivity).
      unfold iteration_order. by rewrite elements_empty.
  - assert (c = []) as ->.
    { destruct c as [|l c]; [done|]. exfalso.
      apply (not_elem_of_empty (C := gset Z) l). rewrite <- Hlits.
      apply elem_of_determine_literals. exists (l :: c). split; left. }
    rewrite run_conflict_at_once; [done|].
    unfold simplify. simpl. apply empty_clause_foldl. left.
Qed.

Lemma variable_free_formula_witness :
  determine_literals [[]; []] = ∅ ∧
  ∀ fuel rng,
    report (run (S fuel) rng [[]; []])
      = Some (bool_decide ([[]; []] = ([] : list (list Z))), []) ∧
    length (calls_of (run (S fuel) rng [[]; []])) = 1%nat.
Proof.
  assert (determine_literals [[]; []] = ∅) as Hlits
    by (vm_compute; reflexivity).
  split; [exact Hlits|]. exact (variable_free_formula [[]; []] Hlits).
Defined.
